(** * Principal component analysis notebook (2.PCA.ipynb)

    The notebook has three pieces of content that can be given a meaning
    of their own:

    - the centering step of the second code cell,
      [iris_data = iris_data - np.mean(iris_data, axis=0)];
    - the linear maps of the last markdown cell, [z = U_nu^T x] (encode)
      and [x^ = U_nu z] (decode), where [U_nu] keeps the first [nu] columns
      of an orthogonal matrix [U];
    - the call [PCA(n_components=3).fit(iris_data)] followed by a read of
      [explained_variance_ratio_].  The body of [fit] belongs to
      scikit-learn and is not part of the notebook.

    Arrays of floating-point numbers are modelled in exact arithmetic, as
    matrices over an arbitrary real field [R] (a [realFieldType]); concrete
    inputs are taken over the rationals. *)

From HB Require Import structures.
From mathcomp Require Import boot order algebra.

Set Implicit Arguments.
Unset Strict Implicit.
Unset Printing Implicit Defensive.

Import GRing.Theory Num.Theory Order.Theory.
Local Open Scope ring_scope.

(** * Definitions *)

(** ** Array literals

    A numpy array literal is a list of rows; [mx_of_rows] reads it as an
    [m x n] matrix (entries outside the literal are [0]). *)

Definition mx_of_rows (R : nzRingType) (m n : nat) (rows : seq (seq R)) :
  'M[R]_(m, n) :=
  \matrix_(i, j) nth 0 (nth [::] rows i) j.

(** ** The centering step (code cell 2, line 55) *)

Section CenteringDef.

Variable R : realFieldType.
Variables N D : nat.

(** [np.mean(X, axis=0)]: the mean of every column, a row of length [D].
    For [N = 0] numpy divides by zero; the statements below ask for
    [0 < N]. *)
Definition mean_axis0 (X : 'M[R]_(N, D)) : 'rV[R]_D :=
  \row_j ((\sum_i X i j) / N%:R).

(** [X - np.mean(X, axis=0)]: numpy broadcasts the row of means over the
    [N] rows of [X]. *)
Definition center (X : 'M[R]_(N, D)) : 'M[R]_(N, D) :=
  \matrix_(i, j) (X i j - mean_axis0 X 0 j).

(** A matrix is centered when each of its column means is zero. *)
Definition centered (X : 'M[R]_(N, D)) : Prop := mean_axis0 X = 0.

End CenteringDef.

(** ** Encoding and decoding (markdown cell 4, lines 96-105)

    "Let U be the orthogonal PC projection matrix [...].  Suppose we only
    retain the first nu columns of U, denoted by U_nu, then we have
    z = U_nu^T x [...]  x^ = U_nu z". *)

Section ReducerDef.

Variable R : realFieldType.
Variable D : nat.

(** The columns of [A] are unit-length and mutually orthogonal. *)
Definition orthonormal_cols (k : nat) (A : 'M[R]_(D, k)) : Prop :=
  A^T *m A = 1%:M.

(** [U_nu]: the first [nu] columns of [U]. *)
Definition truncate (nu : nat) (le_nu : (nu <= D)%N) (U : 'M[R]_D) :
  'M[R]_(D, nu) :=
  \matrix_(i, j) U i (widen_ord le_nu j).

(** [z = U_nu^T x]. *)
Definition encode (nu : nat) (Unu : 'M[R]_(D, nu)) (x : 'cV[R]_D) :
  'cV[R]_nu :=
  Unu^T *m x.

(** [x^ = U_nu z]. *)
Definition decode (nu : nat) (Unu : 'M[R]_(D, nu)) (z : 'cV[R]_nu) :
  'cV[R]_D :=
  Unu *m z.

Definition reconstruct (nu : nat) (Unu : 'M[R]_(D, nu)) (x : 'cV[R]_D) :
  'cV[R]_D :=
  decode Unu (encode Unu x).

(** The matrix [U_nu U_nu^T] of the round trip. *)
Definition projector (nu : nat) (Unu : 'M[R]_(D, nu)) : 'M[R]_D :=
  Unu *m Unu^T.

(** [x] is a linear combination of the columns of [A]. *)
Definition in_span (k : nat) (A : 'M[R]_(D, k)) (x : 'cV[R]_D) : Prop :=
  exists z : 'cV[R]_k, x = A *m z.

(** [p] is an orthogonal projection of [x] onto the span of the columns of
    [A]: it lies in the span and the residual [x - p] is orthogonal to every
    column. *)
Definition orthogonal_projection (k : nat) (A : 'M[R]_(D, k))
    (x p : 'cV[R]_D) : Prop :=
  in_span A p /\ A^T *m (x - p) = 0.

(** Squared Euclidean length, and the Euclidean length itself: [r] is the
    norm of [v] when it is the non-negative square root of the squared
    length. *)
Definition sqnorm (k : nat) (v : 'cV[R]_k) : R := \sum_i v i 0 ^+ 2.

Definition is_norm (k : nat) (v : 'cV[R]_k) (r : R) : Prop :=
  0 <= r /\ r ^+ 2 = sqnorm v.

(** The diagonal matrix with [nu] ones followed by zeros, which the
    markdown cell mentions next to the decoding formula. *)
Definition ones_then_zeros (nu : nat) : 'M[R]_D :=
  \matrix_(i, j) ((i == j) && (i < nu)%N)%:R.

End ReducerDef.

(** ** Fitting (code cell 3, lines 80-84) *)

Section FitDef.

Variable R : realFieldType.
Variables N D : nat.

(** Modelled from the spec: the result type of [fit].  The notebook obtains
    it from scikit-learn's [PCA] object, whose class is not part of the
    notebook.  Spec section 3 and 4.1: a [D x D] basis whose columns are
    ranked by captured variance, "plus the corresponding variance values",
    for a number of retained components chosen by the caller. *)
Record Basis : Type := MkBasis {
  basis_U : 'M[R]_D;
  basis_var : 'rV[R]_D;
  n_components : nat
}.

(** Modelled from the spec: section 4.1, "the covariance matrix
    C = (1/N) X^T X over the centered input". *)
Definition covariance (X : 'M[R]_(N, D)) : 'M[R]_D :=
  N%:R^-1 *: (X^T *m X).

(** Modelled from the spec: section 7, the inputs that are not rejected as
    InvalidInput ("insufficient rows, nu > D, nu < 1"; section 4.1: "if
    N < 2").  Every entry of a matrix over [R] is finite, so the condition
    on non-finite values has no counterpart here. *)
Definition valid_input (nu : nat) : bool :=
  [&& (2 <= N)%N, (1 <= nu)%N & (nu <= D)%N].

Definition descending (lam : 'rV[R]_D) : Prop :=
  forall i j : 'I_D, (i <= j)%N -> lam 0 j <= lam 0 i.

(** Modelled from the spec: [fit], that is scikit-learn's [PCA.fit], called
    at lines 80-81; its body is not part of the notebook.  Spec section 4.1:
    fit "computes the covariance matrix [...], extracts eigenvectors [...]
    ordered by descending eigenvalue [...], and returns the top-D ordered
    orthogonal basis plus the corresponding variance values"; section 6
    leaves the eigendecomposition to a linear-algebra primitive and section
    4.1 leaves the order of tied eigenvalues to the implementation.  So
    [fit X nu B] is the relation "[fit] applied to [X] and [nu] may return
    [B]": the columns of [basis_U B] are orthonormal eigenvectors of the
    covariance matrix, [basis_var B] lists their eigenvalues in descending
    order, and [nu] components are retained. *)
Definition fit (X : 'M[R]_(N, D)) (nu : nat) (B : Basis) : Prop :=
  [/\ valid_input nu,
      orthonormal_cols (basis_U B),
      covariance X *m basis_U B = basis_U B *m diag_mx (basis_var B),
      descending (basis_var B) &
      n_components B = nu].

(** The variance values as a sequence, in component order. *)
Definition variances (B : Basis) : seq R :=
  [seq basis_var B 0 i | i <- enum 'I_D].

Definition total_variance (B : Basis) : R := \sum_(v <- variances B) v.

(** Modelled from the spec: the attribute [explained_variance_ratio_] read
    at line 84, computed inside scikit-learn.  Spec section 4.1: "for each
    retained component, variance_i / total_variance".  In a field of
    MathComp [v / 0] is [0]; the statements below say where the total
    variance has to be non-zero. *)
Definition explained_variance_ratio_ (B : Basis) : seq R :=
  [seq v / total_variance B | v <- take (n_components B) (variances B)].

(** The basis with every principal direction reversed. *)
Definition flip (B : Basis) : Basis :=
  MkBasis (- basis_U B) (basis_var B) (n_components B).

(** Modelled from the spec: the same attribute with the quotient
    "variance_i / total_variance" left undefined where the total variance
    is zero; there the quotient is 0/0 (the array read at line 84 then holds
    nan in every place).  An entry is [Some r] for a defined ratio [r] and
    [None] for an undefined one. *)
Definition explained_variance_ratio_opt (B : Basis) : seq (option R) :=
  [seq (if total_variance B == 0 then None else Some (v / total_variance B))
  | v <- take (n_components B) (variances B)].

(** Comparison and summation of possibly undefined values: no comparison
    with an undefined value holds, and a sum with an undefined term is
    undefined. *)
Definition le_defined (a b : option R) : bool :=
  match a, b with
  | Some x, Some y => x <= y
  | _, _ => false
  end.

Definition sum_defined (s : seq (option R)) : option R :=
  foldr (fun o acc =>
           match o, acc with
           | Some x, Some y => Some (x + y)
           | _, _ => None
           end) (Some 0) s.

End FitDef.

(** ** The notebook as a whole (code cells 2 and 3)

    [iris_data] is centered, a [PCA] with [n_components=3] is fitted to the
    centered data, and its [explained_variance_ratio_] is plotted.
    [notebook_plot iris_data ratios] says that [ratios] is a sequence the
    notebook may plot for the data [iris_data]. *)

Definition notebook_plot (R : realFieldType) (N D : nat)
    (iris_data : 'M[R]_(N, D)) (ratios : seq (option R)) : Prop :=
  exists2 pcaIris3 : Basis R D,
    fit (center iris_data) 3 pcaIris3 &
    ratios = explained_variance_ratio_opt pcaIris3.

(** ** Concrete inputs over the rationals *)

Section Inputs.

(** A data matrix that is not centered, and its centered version. *)
Definition Xraw : 'M[rat]_(2, 2) :=
  mx_of_rows 2 2 [:: [:: 1; 2%:Q]; [:: 3%:Q; 6%:Q]].

Definition X22 : 'M[rat]_(2, 2) :=
  mx_of_rows 2 2 [:: [:: -1; -2%:Q]; [:: 1; 2%:Q]].

(** A rotation of the plane with rational entries, and a vector. *)
Definition U2 : 'M[rat]_2 :=
  mx_of_rows 2 2 [:: [:: 3%:Q / 5%:Q; - (4%:Q / 5%:Q)];
                     [:: 4%:Q / 5%:Q; 3%:Q / 5%:Q]].

Definition x2 : 'cV[rat]_2 := mx_of_rows 2 1 [:: [:: 1]; [:: 0]].

Definition le12 : (1 <= 2)%N := isT.
Definition le22 : (2 <= 2)%N := isT.

(** Three centered observations of two measurements; the second
    measurement varies more than the first. *)
Definition X32 : 'M[rat]_(3, 2) :=
  mx_of_rows 3 2 [:: [:: 1; 1]; [:: -1; 1]; [:: 0; -2%:Q]].

Definition swap2 : 'M[rat]_2 := mx_of_rows 2 2 [:: [:: 0; 1]; [:: 1; 0]].

Definition B32 : Basis rat 2 :=
  MkBasis swap2 (mx_of_rows 1 2 [:: [:: 2%:Q; 2%:Q / 3%:Q]]) 2.

(** Three identical observations of three measurements: no variance at
    all once they are centered. *)
Definition Xsame : 'M[rat]_(3, 3) :=
  mx_of_rows 3 3 [:: [:: 5%:Q; 3%:Q; 1]; [:: 5%:Q; 3%:Q; 1]; [:: 5%:Q; 3%:Q; 1]].

Definition Bsame : Basis rat 3 :=
  MkBasis 1%:M (mx_of_rows 1 3 [:: [:: 0; 0; 0]]) 3.

(** Three centered observations of three measurements, of which only the
    first varies. *)
Definition Xaxis : 'M[rat]_(3, 3) :=
  mx_of_rows 3 3 [:: [:: 1; 0; 0]; [:: -1; 0; 0]; [:: 0; 0; 0]].

Definition Baxis : Basis rat 3 :=
  MkBasis 1%:M (mx_of_rows 1 3 [:: [:: 2%:Q / 3%:Q; 0; 0]]) 3.

End Inputs.

(** ** Further definitions for the properties of the code *)

(** numpy broadcasting: a row of length [D] used as an [N x D] array, as in
    [iris_data - np.mean(iris_data, axis=0)]. *)
Definition broadcast (R : realFieldType) (N D : nat) (c : 'rV[R]_D) :
  'M[R]_(N, D) :=
  \matrix_(i, j) c 0 j.

(** The [i]-th observation of a data matrix, as the column vector that the
    markdown cell calls [x]. *)
Definition observation (R : realFieldType) (N D : nat) (X : 'M[R]_(N, D))
    (i : 'I_N) : 'cV[R]_D :=
  (row i X)^T.

(** An offset and a code for the concrete examples. *)
Definition c2 : 'rV[rat]_2 := mx_of_rows 1 2 [:: [:: 10%:Q; -3%:Q]].

Definition z1 : 'cV[rat]_1 := mx_of_rows 1 1 [:: [:: 7%:Q]].

(** * Theorems *)

(** ** Sums over two, three and one index, for the concrete inputs *)

Lemma sum_ord1 (R : nzRingType) (F : 'I_1 -> R) : \sum_i F i = F 0.
Proof. by rewrite big_ord_recl big_ord0 addr0. Qed.

Lemma sum_ord2 (R : nzRingType) (F : 'I_2 -> R) : \sum_i F i = F 0 + F 1.
Proof.
rewrite big_ord_recl sum_ord1.
by congr (_ + F _); apply: val_inj.
Qed.

Lemma sum_ord3 (R : nzRingType) (F : 'I_3 -> R) :
  \sum_i F i =
  F ord0 + (F (lift ord0 ord0) + F (lift ord0 (lift ord0 ord0))).
Proof. by rewrite !big_ord_recl big_ord0 addr0. Qed.

(** An index of a two-element range is [0] or [1]; similarly for three. *)
Lemma ord2P (i : 'I_2) : i = 0 \/ i = 1.
Proof.
case: i => [[|[|i]]] // lt_i; [left | right]; exact: val_inj.
Qed.

Lemma ord3P (i : 'I_3) :
  [\/ i = ord0, i = lift ord0 ord0 | i = lift ord0 (lift ord0 ord0)].
Proof.
case: i => [[|[|[|i]]]] // lt_i;
  [apply: Or31 | apply: Or32 | apply: Or33]; exact: val_inj.
Qed.

Lemma enum_ord1 : enum 'I_1 = [:: 0].
Proof. by apply: (inj_map val_inj); rewrite val_enum_ord. Qed.

Lemma enum_ord2 : enum 'I_2 = [:: 0; 1].
Proof. by apply: (inj_map val_inj); rewrite val_enum_ord. Qed.

Lemma enum_ord3 :
  enum 'I_3 = [:: ord0; lift ord0 ord0; lift ord0 (lift ord0 ord0)].
Proof. by apply: (inj_map val_inj); rewrite val_enum_ord. Qed.

(** Closed (in)equalities between rationals are decided by evaluation. *)
Ltac rat_eval :=
  match goal with
  | |- @eq _ _ _ => apply/eqP
  | _ => idtac
  end; vm_compute; reflexivity.

(** ** Centering *)

Section CenteringTheory.

Variable R : realFieldType.
Variables N D : nat.
Implicit Types X : 'M[R]_(N, D).

Lemma mean_axis0E X j : mean_axis0 X 0 j = (\sum_i X i j) / N%:R.
Proof. by rewrite mxE. Qed.

Lemma centerE X i j : center X i j = X i j - (\sum_k X k j) / N%:R.
Proof. by rewrite !mxE. Qed.

Lemma sum_center_col X j : (0 < N)%N -> \sum_i center X i j = 0.
Proof.
move=> N_gt0.
have N_neq0 : N%:R != 0 :> R by rewrite pnatr_eq0 -lt0n.
under eq_bigr do rewrite centerE.
rewrite big_split /= sumrN sumr_const card_ord -mulr_natr.
by rewrite divfK // subrr.
Qed.

Lemma center_centered X : (0 < N)%N -> centered (center X).
Proof.
move=> N_gt0; apply/rowP=> j.
by rewrite mean_axis0E sum_center_col // mul0r mxE.
Qed.

Lemma center_fixes_centered X : centered X -> center X = X.
Proof.
move=> cX; apply/matrixP=> i j.
by rewrite mxE cX mxE subr0.
Qed.

(** C10: subtracting the column means gives a matrix whose column means
    are exactly zero, and the step is idempotent: it leaves an already
    centered matrix unchanged, in particular its own result. *)
Theorem center_zero_mean_idempotent X :
  (0 < N)%N ->
  [/\ centered (center X),
      center (center X) = center X &
      centered X -> center X = X].
Proof.
move=> N_gt0; split.
- exact: center_centered.
- by apply: center_fixes_centered; exact: center_centered.
- exact: center_fixes_centered.
Qed.

End CenteringTheory.

(** The centering step on a concrete array. *)
Example center_Xraw : center Xraw = X22.
Proof.
apply/matrixP=> i j; rewrite centerE sum_ord2 !mxE /=.
by case: (ord2P i) => ->; case: (ord2P j) => ->; rat_eval.
Qed.

Lemma X22_centered : centered X22.
Proof.
apply/rowP=> j; rewrite mean_axis0E sum_ord2 !mxE /=.
by case: (ord2P j) => ->; rat_eval.
Qed.

Lemma center_zero_mean_idempotent_witness :
  [/\ centered (center X22), center (center X22) = center X22 &
      center X22 = X22].
Proof.
have [c1 c2 c3] := center_zero_mean_idempotent X22 isT.
by split; [exact: c1 | exact: c2 | exact: (c3 X22_centered)].
Defined.

(** ** Encoding, decoding and the projector of the round trip *)

Section ReducerTheory.

Variable R : realFieldType.
Variable D : nat.

Lemma reconstructE nu (Unu : 'M[R]_(D, nu)) x :
  reconstruct Unu x = projector Unu *m x.
Proof. by rewrite /reconstruct /decode /encode /projector mulmxA. Qed.

Lemma truncate_orthonormal nu (le_nu : (nu <= D)%N) (U : 'M[R]_D) :
  orthonormal_cols U -> orthonormal_cols (truncate le_nu U).
Proof.
move=> oU; apply/matrixP=> i j; rewrite !mxE.
have := congr1 (fun A : 'M[R]_D => A (widen_ord le_nu i) (widen_ord le_nu j)) oU.
rewrite !mxE -val_eqE /= val_eqE => <-.
by apply: eq_bigr => k _; rewrite !mxE.
Qed.

Lemma projector_idem nu (Unu : 'M[R]_(D, nu)) :
  orthonormal_cols Unu -> projector Unu *m projector Unu = projector Unu.
Proof.
by move=> oU; rewrite /projector mulmxA -(mulmxA Unu) oU mulmx1.
Qed.

Lemma projector_sym nu (Unu : 'M[R]_(D, nu)) :
  (projector Unu)^T = projector Unu.
Proof. by rewrite /projector trmx_mul trmxK. Qed.

Lemma projector_rank nu (Unu : 'M[R]_(D, nu)) :
  orthonormal_cols Unu -> \rank (projector Unu) = nu.
Proof.
move=> oU.
have free_tr : row_free Unu^T by apply/row_freeP; exists Unu.
rewrite /projector mxrankMfree // -mxrank_tr.
exact/eqP.
Qed.

Lemma reconstruct_in_span nu (Unu : 'M[R]_(D, nu)) x :
  in_span Unu (reconstruct Unu x).
Proof. by exists (encode Unu x). Qed.

Lemma reconstruct_residual nu (Unu : 'M[R]_(D, nu)) x :
  orthonormal_cols Unu -> Unu^T *m (x - reconstruct Unu x) = 0.
Proof.
move=> oU; rewrite mulmxBr /reconstruct /decode /encode.
by rewrite mulmxA oU mul1mx subrr.
Qed.

Lemma orthogonal_projection_uniq nu (Unu : 'M[R]_(D, nu)) x p :
  orthonormal_cols Unu -> orthogonal_projection Unu x p ->
  p = reconstruct Unu x.
Proof.
move=> oU [[z ->]] /eqP; rewrite mulmxBr subr_eq0 mulmxA oU mul1mx => /eqP zE.
by rewrite /reconstruct /decode /encode zE.
Qed.

Lemma reconstruct_fixes_span nu (Unu : 'M[R]_(D, nu)) x :
  orthonormal_cols Unu -> in_span Unu x -> reconstruct Unu x = x.
Proof.
move=> oU [z ->]; rewrite /reconstruct /decode /encode.
by rewrite (mulmxA Unu^T) oU mul1mx.
Qed.

Lemma truncate_full (le_D : (D <= D)%N) (U : 'M[R]_D) : truncate le_D U = U.
Proof.
apply/matrixP=> i j; rewrite mxE; congr (U i _).
exact: val_inj.
Qed.

Lemma reconstruct_full nu (le_nu : (nu <= D)%N) (U : 'M[R]_D) x :
  orthonormal_cols U -> nu = D -> reconstruct (truncate le_nu U) x = x.
Proof.
move=> oU nuD; subst nu; rewrite truncate_full reconstructE /projector.
by rewrite (mulmx1C oU) mul1mx.
Qed.

(** *** Lengths *)

Lemma sqnormE k (v : 'cV[R]_k) : sqnorm v = (v^T *m v) 0 0.
Proof.
by rewrite /sqnorm mxE; apply: eq_bigr => i _; rewrite mxE expr2.
Qed.

Lemma sqnorm_ge0 k (v : 'cV[R]_k) : 0 <= sqnorm v.
Proof. by apply: sumr_ge0 => i _; exact: sqr_ge0. Qed.

Lemma sqnorm0 k : sqnorm (0 : 'cV[R]_k) = 0.
Proof. by rewrite sqnormE mulmx0 mxE. Qed.

Lemma sqnorm_add_orth k (a b : 'cV[R]_k) :
  a^T *m b = 0 -> sqnorm (a + b) = sqnorm a + sqnorm b.
Proof.
move=> ab0; have ba0 : b^T *m a = 0.
  by rewrite -[b^T *m a]trmxK trmx_mul trmxK ab0 trmx0.
rewrite !sqnormE [(a + b)^T]linearD /= mulmxDl !mulmxDr ab0 ba0.
by rewrite addr0 add0r mxE.
Qed.

(** Pythagoras: the squared reconstruction error is what the encoding does
    not capture of the squared length of [x]. *)
Lemma sqnorm_residual nu (Unu : 'M[R]_(D, nu)) x :
  orthonormal_cols Unu ->
  sqnorm (x - reconstruct Unu x) = sqnorm x - sqnorm (encode Unu x).
Proof.
move=> oU; rewrite !sqnormE reconstructE.
set P := projector Unu.
have xPx : (P *m x)^T *m x = x^T *m (P *m x).
  by rewrite trmx_mul projector_sym mulmxA.
have PxPx : (P *m x)^T *m (P *m x) = x^T *m (P *m x).
  by rewrite trmx_mul projector_sym -mulmxA (mulmxA P) projector_idem.
have -> : encode Unu x = Unu^T *m x by [].
have -> : (Unu^T *m x)^T *m (Unu^T *m x) = x^T *m (P *m x).
  by rewrite trmx_mul trmxK /P /projector !mulmxA.
rewrite [(x - _)^T]linearB /= mulmxBl !mulmxBr xPx PxPx subrr subr0.
by rewrite !mxE.
Qed.

(** The reconstruction is the point of the span closest to [x]. *)
Lemma reconstruct_closest nu (Unu : 'M[R]_(D, nu)) x q :
  orthonormal_cols Unu -> in_span Unu q ->
  sqnorm (x - reconstruct Unu x) <= sqnorm (x - q).
Proof.
move=> oU [z qE].
have -> : x - q = (x - reconstruct Unu x) + Unu *m (encode Unu x - z).
  by rewrite mulmxBr -qE addrA subrK.
rewrite [leRHS]sqnorm_add_orth ?lerDl ?sqnorm_ge0 //.
rewrite mulmxA -[_^T *m Unu]trmxK trmx_mul trmxK.
by rewrite reconstruct_residual // trmx0 mul0mx.
Qed.

(** The squared length of the code of [x] under the first [nu] columns is
    the sum of the squares of the first [nu] coordinates of [U^T x]. *)
Lemma sqnorm_encode_truncate nu (le_nu : (nu <= D)%N) (U : 'M[R]_D) x :
  sqnorm (encode (truncate le_nu U) x) =
  \sum_(i < D | (i < nu)%N) (U^T *m x) i 0 ^+ 2.
Proof.
rewrite (big_ord_narrow le_nu) /=; apply: eq_bigr => j _.
congr (_ ^+ 2); rewrite !mxE; apply: eq_bigr => k _.
by rewrite !mxE.
Qed.

Lemma sqnorm_encode_mono nu mu (le_nu : (nu <= D)%N) (le_mu : (mu <= D)%N)
    (U : 'M[R]_D) x :
  (nu <= mu)%N ->
  sqnorm (encode (truncate le_nu U) x) <= sqnorm (encode (truncate le_mu U) x).
Proof.
move=> le_nu_mu; rewrite !sqnorm_encode_truncate.
rewrite big_mkcond [leRHS]big_mkcond /=; apply: ler_sum => i _.
case: ifP => [lt_i_nu|_]; last by case: ifP => _ //; exact: sqr_ge0.
by rewrite (leq_trans lt_i_nu le_nu_mu).
Qed.

Lemma sqnorm_residual_mono nu mu (le_nu : (nu <= D)%N) (le_mu : (mu <= D)%N)
    (U : 'M[R]_D) x :
  orthonormal_cols U -> (nu <= mu)%N ->
  sqnorm (x - reconstruct (truncate le_mu U) x) <=
  sqnorm (x - reconstruct (truncate le_nu U) x).
Proof.
move=> oU le_nu_mu.
rewrite !sqnorm_residual; try exact: truncate_orthonormal.
by rewrite lerD2l lerN2; exact: sqnorm_encode_mono.
Qed.

Lemma is_norm_mono k l (v : 'cV[R]_k) (w : 'cV[R]_l) r s :
  is_norm v r -> is_norm w s -> sqnorm v <= sqnorm w -> r <= s.
Proof.
move=> [r_ge0 rE] [s_ge0 sE]; rewrite -rE -sE.
by rewrite ler_sqr.
Qed.

End ReducerTheory.

Section ReducerClaims.

Variable R : realFieldType.
Variable D : nat.

(** In the principal axes the projector is the diagonal matrix with [nu]
    ones followed by zeros: this is the sense in which the remark of the
    markdown cell holds. *)
Lemma projector_in_principal_axes nu (le_nu : (nu <= D)%N) (U : 'M[R]_D) :
  orthonormal_cols U ->
  U^T *m projector (truncate le_nu U) *m U = ones_then_zeros R D nu.
Proof.
move=> oU; pose E : 'M[R]_(D, nu) := \matrix_(i, j) (i == widen_ord le_nu j)%:R.
have UtU : U^T *m truncate le_nu U = E.
  apply/matrixP=> i j; rewrite !mxE.
  have := congr1 (fun A : 'M[R]_D => A i (widen_ord le_nu j)) oU.
  by rewrite !mxE => <-; apply: eq_bigr => k _; rewrite !mxE.
have -> : U^T *m projector (truncate le_nu U) *m U = E *m E^T.
  by rewrite /projector mulmxA UtU -mulmxA -[_^T *m U]trmxK trmx_mul trmxK UtU.
apply/matrixP=> i j; rewrite !mxE.
under eq_bigr do rewrite !mxE.
have [lt_i_nu|ge_i_nu] := ltnP i nu.
  rewrite andbT (bigD1 (Ordinal lt_i_nu)) //= big1 ?addr0 => [k ne_k|].
    have /negPf-> : i != widen_ord le_nu k.
      by rewrite -val_eqE /= eq_sym; move: ne_k; rewrite -val_eqE.
    by rewrite mul0r.
  have -> : i == widen_ord le_nu (Ordinal lt_i_nu) by rewrite -val_eqE.
  by rewrite mul1r -val_eqE /= val_eqE eq_sym.
rewrite andbF big1 // => k _.
have /negPf-> : i != widen_ord le_nu k.
  by rewrite -val_eqE /= neq_ltn (leq_trans (ltn_ord k) ge_i_nu) orbT.
by rewrite mul0r.
Qed.

(** C1: decode(encode(x)) is [U_nu U_nu^T x]; it is the orthogonal
    projection of [x] onto the span of the columns of [U_nu] (it lies in
    the span, the residual is orthogonal to every column, it is the only
    such vector and no vector of the span is closer to [x]); and it equals
    [x] exactly when [nu = D] or [x] already lies in that span. *)
Theorem decode_encode_orthogonal_projection nu (le_nu : (nu <= D)%N)
    (U : 'M[R]_D) (x : 'cV[R]_D) :
  orthonormal_cols U ->
  let Unu := truncate le_nu U in
  [/\ decode Unu (encode Unu x) = Unu *m Unu^T *m x,
      orthogonal_projection Unu x (decode Unu (encode Unu x)),
      forall p, orthogonal_projection Unu x p -> p = decode Unu (encode Unu x),
      forall q, in_span Unu q ->
        sqnorm (x - decode Unu (encode Unu x)) <= sqnorm (x - q) &
      decode Unu (encode Unu x) = x <-> nu = D \/ in_span Unu x].
Proof.
move=> oU Unu; have oUnu : orthonormal_cols Unu by exact: truncate_orthonormal.
split.
- exact: reconstructE.
- by split; [exact: reconstruct_in_span | exact: reconstruct_residual].
- by move=> p; exact: orthogonal_projection_uniq.
- by move=> q; exact: reconstruct_closest.
split=> [<-|[nuD|x_in]].
- by right; exact: reconstruct_in_span.
- exact: reconstruct_full.
- exact: reconstruct_fixes_span.
Qed.

(** When a matrix [U] has orthonormal columns, every truncation [U_nu] has
    orthonormal columns as well, and [U_nu U_nu^T] is a [D x D] idempotent,
    symmetric matrix of rank [nu]. *)
Theorem truncated_basis_projector (U : 'M[R]_D) :
  orthonormal_cols U ->
  forall nu (le_nu : (nu <= D)%N),
  let Unu := truncate le_nu U in
  [/\ Unu^T *m Unu = 1%:M,
      (Unu *m Unu^T) *m (Unu *m Unu^T) = Unu *m Unu^T,
      (Unu *m Unu^T)^T = Unu *m Unu^T &
      \rank (Unu *m Unu^T) = nu].
Proof.
move=> oU nu le_nu Unu.
have oUnu : orthonormal_cols Unu by exact: truncate_orthonormal.
split=> //.
- exact: projector_idem.
- exact: projector_sym.
- exact: projector_rank.
Qed.

(** C7: for a fixed vector [x] and a fixed orthonormal basis, the
    reconstruction error, the Euclidean norm of [x - decode(encode(x))],
    does not increase when more components are retained. *)
Theorem reconstruction_error_nonincreasing nu mu
    (le_nu : (nu <= D)%N) (le_mu : (mu <= D)%N)
    (U : 'M[R]_D) (x : 'cV[R]_D) (err_nu err_mu : R) :
  orthonormal_cols U -> (nu <= mu)%N ->
  is_norm (x - decode (truncate le_nu U) (encode (truncate le_nu U) x)) err_nu ->
  is_norm (x - decode (truncate le_mu U) (encode (truncate le_mu U) x)) err_mu ->
  err_mu <= err_nu.
Proof.
move=> oU le_nu_mu norm_nu norm_mu.
apply: is_norm_mono norm_mu norm_nu _.
exact: sqnorm_residual_mono.
Qed.

End ReducerClaims.

(** With square roots at hand the error is a function of [nu]. *)
Lemma reconstruction_error_sqrt_nonincreasing (R : rcfType) (D nu mu : nat)
    (le_nu : (nu <= D)%N) (le_mu : (mu <= D)%N) (U : 'M[R]_D) (x : 'cV[R]_D) :
  orthonormal_cols U -> (nu <= mu)%N ->
  Num.sqrt (sqnorm (x - reconstruct (truncate le_mu U) x)) <=
  Num.sqrt (sqnorm (x - reconstruct (truncate le_nu U) x)).
Proof.
move=> oU le_nu_mu; rewrite ler_sqrt ?sqnorm_ge0 //.
exact: sqnorm_residual_mono.
Qed.

(** *** The round trip on a concrete basis *)

Lemma U2_orthonormal : orthonormal_cols U2.
Proof.
apply/matrixP=> i j; rewrite !mxE sum_ord2 !mxE /=.
by case: (ord2P i) => ->; case: (ord2P j) => ->; rat_eval.
Qed.

(** Keeping one column of [U2], the vector [(1, 0)] is decoded as
    [(9/25, 12/25)]. *)
Example reconstruct_x2 :
  decode (truncate le12 U2) (encode (truncate le12 U2) x2) =
  mx_of_rows 2 1 [:: [:: 9%:Q / 25%:Q]; [:: 12%:Q / 25%:Q]].
Proof.
apply/matrixP=> i j; rewrite !mxE sum_ord1 !mxE sum_ord2 !mxE /= !ord1 /=.
by case: (ord2P i) => ->; rat_eval.
Qed.

(** The remark of the markdown cell, "U_nu U_nu^T is diagonal", does not
    hold of the matrix itself: here it has the off-diagonal entry 12/25. *)
Remark projector_not_diagonal :
  projector (truncate le12 U2) 0 1 = 12%:Q / 25%:Q.
Proof. by rewrite !mxE sum_ord1 !mxE /=; rat_eval. Qed.

Lemma decode_encode_orthogonal_projection_witness :
  let Unu := truncate le12 U2 in
  [/\ decode Unu (encode Unu x2) = Unu *m Unu^T *m x2,
      orthogonal_projection Unu x2 (decode Unu (encode Unu x2)),
      forall p, orthogonal_projection Unu x2 p -> p = decode Unu (encode Unu x2),
      forall q, in_span Unu q ->
        sqnorm (x2 - decode Unu (encode Unu x2)) <= sqnorm (x2 - q) &
      decode Unu (encode Unu x2) = x2 <-> 1%N = 2%N \/ in_span Unu x2].
Proof.
exact: (decode_encode_orthogonal_projection le12 x2 U2_orthonormal).
Defined.

Lemma truncated_basis_projector_witness :
  let Unu := truncate le12 U2 in
  [/\ Unu^T *m Unu = 1%:M,
      (Unu *m Unu^T) *m (Unu *m Unu^T) = Unu *m Unu^T,
      (Unu *m Unu^T)^T = Unu *m Unu^T &
      \rank (Unu *m Unu^T) = 1%N].
Proof.
exact: (truncated_basis_projector U2_orthonormal le12).
Defined.

Lemma error_x2_one_component :
  is_norm (x2 - decode (truncate le12 U2) (encode (truncate le12 U2) x2))
          (4%:Q / 5%:Q).
Proof.
split; first by rat_eval.
by rewrite reconstruct_x2 /sqnorm sum_ord2 !mxE /=; rat_eval.
Qed.

Lemma error_x2_two_components :
  is_norm (x2 - decode (truncate le22 U2) (encode (truncate le22 U2) x2)) 0.
Proof.
split; first exact: lexx.
have -> : decode (truncate le22 U2) (encode (truncate le22 U2) x2) = x2.
  exact: (reconstruct_full le22 x2 U2_orthonormal).
by rewrite subrr sqnorm0 expr0n.
Qed.

Lemma reconstruction_error_nonincreasing_witness :
  [/\ is_norm (x2 - decode (truncate le12 U2) (encode (truncate le12 U2) x2))
              (4%:Q / 5%:Q),
      is_norm (x2 - decode (truncate le22 U2) (encode (truncate le22 U2) x2))
              0 &
      (0 : rat) <= 4%:Q / 5%:Q].
Proof.
split.
- exact: error_x2_one_component.
- exact: error_x2_two_components.
- exact: (reconstruction_error_nonincreasing U2_orthonormal
            (isT : (1 <= 2)%N)
            error_x2_one_component error_x2_two_components).
Defined.

(** ** Fitting: variances and explained-variance ratios *)

Section FitTheory.

Variable R : realFieldType.
Variables N D : nat.
Implicit Types (X : 'M[R]_(N, D)) (B : Basis R D).

(** Matrices related by an orthogonal change of basis have the same
    characteristic polynomial. *)
Lemma char_poly_conj (U A L : 'M[R]_D) :
  U^T *m U = 1%:M -> A *m U = U *m L -> char_poly A = char_poly L.
Proof.
move=> oU AU.
pose f := map_mx (polyC : R -> {poly R}) : 'M[R]_D -> 'M[{poly R}]_D.
have fU : f U^T *m f U = 1%:M by rewrite -map_mxM oU map_mx1.
have detU : \det (f U) != 0.
  apply/eqP=> dU0; have := congr1 determinant fU.
  by rewrite det_mulmx dU0 mulr0 det1 => /eqP; rewrite eq_sym oner_eq0.
have comm : char_poly_mx A *m f U = f U *m char_poly_mx L.
  rewrite /char_poly_mx mulmxBl mulmxBr -!map_mxM AU.
  by rewrite scalar_mxC.
apply: (mulIf detU); rewrite /char_poly -det_mulmx comm det_mulmx.
by rewrite mulrC.
Qed.

Lemma char_poly_diag (lam : 'rV[R]_D) :
  char_poly (diag_mx lam) =
  \prod_(v <- [seq lam 0 i | i <- enum 'I_D]) ('X - v%:P).
Proof.
rewrite char_poly_trig ?diag_mx_is_trig // big_map big_enum /=.
by apply: eq_bigr => i _; rewrite mxE eqxx mulr1n.
Qed.

Lemma descending_sorted (lam : 'rV[R]_D) :
  descending lam -> sorted >=%O [seq lam 0 i | i <- enum 'I_D].
Proof.
move=> desc; rewrite sorted_map.
have: sorted leq [seq val i | i <- enum 'I_D].
  by rewrite val_enum_ord iota_sorted.
rewrite sorted_map; apply: sub_sorted => i j /=.
exact: desc.
Qed.

(** The variance values are determined by the input: they are the roots
    of the characteristic polynomial of the covariance matrix, in
    descending order. *)
Lemma fit_variances_unique X nu nu' B B' :
  fit X nu B -> fit X nu' B' -> variances B = variances B'.
Proof.
move=> [_ oU eU dU _] [_ oU' eU' dU' _].
have cp : char_poly (diag_mx (basis_var B)) =
          char_poly (diag_mx (basis_var B')).
  by rewrite -(char_poly_conj oU eU) -(char_poly_conj oU' eU').
rewrite !char_poly_diag in cp.
apply: (@sorted_eq _ >=%O).
- exact: ge_trans.
- exact: ge_anti.
- exact: descending_sorted.
- exact: descending_sorted.
exact: prod_XsubC_eq.
Qed.

(** Each variance is a mean of squares: the data projected on the
    corresponding principal direction. *)
Lemma fit_var_gram X nu B i :
  fit X nu B ->
  basis_var B 0 i = N%:R^-1 * \sum_k (X *m basis_U B) k i ^+ 2.
Proof.
move=> [_ oU eU _ _].
have : (basis_U B)^T *m (covariance X *m basis_U B) = diag_mx (basis_var B).
  by rewrite eU mulmxA oU mul1mx.
move/(congr1 (fun A : 'M[R]_D => A i i)); rewrite [RHS]mxE eqxx mulr1n => <-.
rewrite /covariance -scalemxAl -scalemxAr mxE.
have -> : (basis_U B)^T *m (X^T *m X *m basis_U B) =
          (X *m basis_U B)^T *m (X *m basis_U B).
  by rewrite trmx_mul !mulmxA.
congr (_ * _); rewrite mxE; apply: eq_bigr => k _.
by rewrite mxE expr2.
Qed.

Lemma fit_var_ge0 X nu B i : fit X nu B -> 0 <= basis_var B 0 i.
Proof.
move/fit_var_gram=> ->; apply: mulr_ge0; first by rewrite invr_ge0 ler0n.
by apply: sumr_ge0 => k _; exact: sqr_ge0.
Qed.

Lemma variances_ge0 X nu B :
  fit X nu B -> all (fun v => 0 <= v) (variances B).
Proof.
move=> fitB; apply/allP=> v /mapP[i _ ->]; exact: fit_var_ge0 fitB.
Qed.

Lemma size_variances B : size (variances B) = D.
Proof. by rewrite size_map size_enum_ord. Qed.

Lemma sum_ge0_seq (s : seq R) :
  all (fun v => 0 <= v) s -> 0 <= \sum_(v <- s) v.
Proof. by move/allP=> s_ge0; rewrite big_seq; apply: sumr_ge0. Qed.

Lemma total_variance_ge0 X nu B : fit X nu B -> 0 <= total_variance B.
Proof. by move/variances_ge0/sum_ge0_seq. Qed.

Lemma sum_ratio B :
  \sum_(r <- explained_variance_ratio_ B) r =
  (\sum_(v <- take (n_components B) (variances B)) v) / total_variance B.
Proof. by rewrite /explained_variance_ratio_ big_map mulr_suml. Qed.

Lemma ratio_ge0 X nu B :
  fit X nu B -> all (fun r => 0 <= r) (explained_variance_ratio_ B).
Proof.
move=> fitB; apply/allP=> r /mapP[v /mem_take v_in ->].
apply: divr_ge0; last exact: total_variance_ge0 fitB.
exact: (allP (variances_ge0 fitB)).
Qed.

Lemma sum_take_le k (s : seq R) :
  all (fun v => 0 <= v) s -> \sum_(v <- take k s) v <= \sum_(v <- s) v.
Proof.
move=> s_ge0; rewrite -{2}(cat_take_drop k s) big_cat /= lerDl.
apply: sum_ge0_seq; apply/allP=> v /mem_drop; exact: (allP s_ge0).
Qed.

Lemma sum_ratio_full B :
  n_components B = D -> total_variance B != 0 ->
  \sum_(r <- explained_variance_ratio_ B) r = 1.
Proof.
move=> nD T_neq0; rewrite sum_ratio nD take_oversize ?size_variances //.
exact: divff.
Qed.

Lemma ratio_sorted X nu B :
  fit X nu B -> sorted >=%O (explained_variance_ratio_ B).
Proof.
move=> fitB; have [_ _ _ dB _] := fitB.
have T_ge0 := total_variance_ge0 fitB.
rewrite sorted_map.
have: sorted >=%O (take (n_components B) (variances B)).
  by apply: take_sorted; exact: descending_sorted.
by apply: sub_sorted => a b /= le_ba; rewrite ler_wpM2r // invr_ge0.
Qed.

Lemma ratio_unique X nu B B' :
  fit X nu B -> fit X nu B' ->
  explained_variance_ratio_ B = explained_variance_ratio_ B'.
Proof.
move=> fitB fitB'; have vE := fit_variances_unique fitB fitB'.
have [_ _ _ _ nB] := fitB; have [_ _ _ _ nB'] := fitB'.
by rewrite /explained_variance_ratio_ /total_variance vE nB nB'.
Qed.

(** Reversing every principal direction gives another admissible result:
    the basis itself is not determined by the input. *)
Lemma fit_flip X nu B : fit X nu B -> fit X nu (flip B).
Proof.
move=> [val_nu oU eU dU nB]; split=> //=.
- by rewrite /orthonormal_cols [(- _)^T]linearN /= mulNmx mulmxN opprK.
- by rewrite mulmxN eU mulNmx.
Qed.

End FitTheory.

Section FitClaims.

Variable R : realFieldType.
Variables N D : nat.
Implicit Types (X : 'M[R]_(N, D)) (B : Basis R D).

(** *** Defined and undefined ratios *)

Lemma sum_defined_some (s : seq R) :
  sum_defined (map Some s) = Some (\sum_(r <- s) r).
Proof. by elim: s => [|r s IHs] /=; rewrite ?big_nil // IHs big_cons. Qed.

Lemma all_ge0_defined (s : seq R) :
  all (le_defined (Some 0)) (map Some s) = all (fun r => 0 <= r) s.
Proof. by rewrite all_map. Qed.

(** Where the total variance is not zero every ratio is defined, and the
    two forms of the attribute agree. *)
Lemma ratio_opt_defined B :
  total_variance B != 0 ->
  explained_variance_ratio_opt B = map Some (explained_variance_ratio_ B).
Proof.
move=> /negPf T_neq0.
rewrite /explained_variance_ratio_opt /explained_variance_ratio_ -map_comp.
by apply: eq_map => v /=; rewrite T_neq0.
Qed.

(** Where it is zero no ratio is defined. *)
Lemma ratio_opt_undefined B :
  total_variance B = 0 ->
  explained_variance_ratio_opt B =
  nseq (size (take (n_components B) (variances B))) None.
Proof.
move=> T0; rewrite /explained_variance_ratio_opt T0 eqxx.
by elim: (take _ _) => //= v s ->.
Qed.

Lemma ratio_opt_unique X nu B B' :
  fit X nu B -> fit X nu B' ->
  explained_variance_ratio_opt B' = explained_variance_ratio_opt B.
Proof.
move=> fitB fitB'; have vE := fit_variances_unique fitB fitB'.
have [_ _ _ _ nB] := fitB; have [_ _ _ _ nB'] := fitB'.
by rewrite /explained_variance_ratio_opt /total_variance vE nB nB'.
Qed.

Lemma sum_ratio_le1_defined X nu B :
  fit X nu B -> total_variance B != 0 ->
  \sum_(r <- explained_variance_ratio_ B) r <= 1.
Proof.
move=> fitB T_neq0; rewrite sum_ratio.
have T_gt0 : 0 < total_variance B.
  by rewrite lt_def T_neq0 (total_variance_ge0 fitB).
by rewrite ler_pdivrMr // mul1r; apply: sum_take_le; exact: variances_ge0 fitB.
Qed.

(** *** Orthogonality of the principal directions *)

Lemma covariance_sym X : (covariance X)^T = covariance X.
Proof. by rewrite /covariance linearZ /= trmx_mul trmxK. Qed.

(** Eigenvectors of the covariance matrix for different eigenvalues are
    orthogonal: between directions of different variance the orthogonality
    that [fit] asks of its result is forced by the eigenvector equation. *)
Lemma eigenvectors_orthogonal X (U : 'M[R]_D) (lam : 'rV[R]_D) i j :
  covariance X *m U = U *m diag_mx lam -> lam 0 i != lam 0 j ->
  (U^T *m U) i j = 0.
Proof.
move=> eU ne_ij; pose G := U^T *m covariance X *m U.
have GE : G = U^T *m U *m diag_mx lam by rewrite /G -!mulmxA eU.
have Gsym : G^T = G by rewrite /G !trmx_mul trmxK covariance_sym mulmxA.
have Gij k l : G k l = (U^T *m U) k l * lam 0 l.
  rewrite GE mxE (bigD1 l) //= big1 ?addr0 => [m ne_ml|].
    by rewrite [diag_mx _ _ _]mxE (negPf ne_ml) mulr0n mulr0.
  by rewrite [diag_mx _ _ _]mxE eqxx mulr1n.
have UtU_sym : (U^T *m U) j i = (U^T *m U) i j.
  by rewrite -[in LHS](trmxK (U^T *m U)) trmx_mul trmxK mxE.
have : G i j = G j i by rewrite -[in LHS]Gsym mxE.
rewrite !Gij UtU_sym => /eqP; rewrite -subr_eq0 -mulrBr mulf_eq0.
by rewrite subr_eq0 [_ == lam 0 i]eq_sym (negPf ne_ij) orbF => /eqP.
Qed.


(** C3 (as amended): for every fitted basis whose total variance is not
    zero, the explained-variance ratios are defined and non-negative, their
    sum over the retained components is at most 1, and the sum is exactly 1
    when all [D] components are retained. *)
Theorem explained_variance_ratio_defined_bounds X nu B :
  fit X nu B -> total_variance B != 0 ->
  [/\ all (le_defined (Some 0)) (explained_variance_ratio_opt B),
      le_defined (sum_defined (explained_variance_ratio_opt B)) (Some 1) &
      nu = D -> sum_defined (explained_variance_ratio_opt B) = Some 1].
Proof.
move=> fitB T_neq0; rewrite ratio_opt_defined // sum_defined_some; split.
- by rewrite all_ge0_defined; exact: ratio_ge0 fitB.
- exact: sum_ratio_le1_defined fitB T_neq0.
- case: fitB => _ _ _ _ nB nuD; congr Some.
  by apply: sum_ratio_full => //; rewrite nB.
Qed.

(** C4 (as amended): for every fitted basis whose total variance is not
    zero, the explained-variance ratios are defined and do not increase
    with the component index, and the ordered sequence is the same for
    every result of fitting the same input, however tied eigenvalues are
    ordered. *)
Theorem explained_variance_ratio_defined_nonincreasing X nu B :
  fit X nu B -> total_variance B != 0 ->
  (forall i j, (i <= j < size (explained_variance_ratio_opt B))%N ->
     le_defined (nth None (explained_variance_ratio_opt B) j)
                (nth None (explained_variance_ratio_opt B) i)) /\
  (forall B', fit X nu B' ->
     explained_variance_ratio_opt B' = explained_variance_ratio_opt B).
Proof.
move=> fitB T_neq0; split=> [i j|B' fitB']; last exact: ratio_opt_unique fitB'.
rewrite ratio_opt_defined // size_map => /andP[le_ij lt_j].
have lt_i := leq_ltn_trans le_ij lt_j.
rewrite (nth_map 0) // (nth_map 0) //=.
have := sorted_leq_nth ge_trans ge_refl 0 (ratio_sorted fitB).
by move=> /(_ i j); rewrite !inE; apply.
Qed.

(** C8: two results of fitting the same input have the same variance
    values and the same explained-variance ratios. *)
Theorem fit_deterministic_ratios X nu B B' :
  fit X nu B -> fit X nu B' ->
  variances B = variances B' /\
  explained_variance_ratio_ B = explained_variance_ratio_ B'.
Proof.
move=> fitB fitB'; split; first exact: fit_variances_unique fitB fitB'.
exact: ratio_unique fitB fitB'.
Qed.

End FitClaims.

(** *** Fitting concrete data *)

Lemma swap2_orthonormal : orthonormal_cols swap2.
Proof.
apply/matrixP=> i j; rewrite !mxE sum_ord2 !mxE /=.
by case: (ord2P i) => ->; case: (ord2P j) => ->; rat_eval.
Qed.

(** The covariance matrix of [X32] is diagonal, with the larger variance in
    the second place. *)
Lemma cov_X32 :
  covariance X32 = diag_mx (mx_of_rows 1 2 [:: [:: 2%:Q / 3%:Q; 2%:Q]]).
Proof.
apply/matrixP=> i j; rewrite /covariance mxE [in LHS]mxE sum_ord3 !mxE /=.
by case: (ord2P i) => ->; case: (ord2P j) => ->; rat_eval.
Qed.


Lemma fit_X32 : fit X32 2 B32.
Proof.
split; [by [] | exact: swap2_orthonormal | | | by []].
- rewrite cov_X32; apply/matrixP=> i j; rewrite /B32 /=.
  rewrite mxE [in RHS]mxE !sum_ord2 !mxE /=.
  by case: (ord2P i) => ->; case: (ord2P j) => ->; rat_eval.
- move=> i j; rewrite /B32 /= !mxE /=.
  by case: (ord2P i) => ->; case: (ord2P j) => -> /=; vm_compute.
Qed.

Lemma variances_B32 : variances B32 = [:: 2%:Q; 2%:Q / 3%:Q].
Proof. by rewrite /variances enum_ord2 /= !mxE. Qed.

Lemma total_variance_B32 : total_variance B32 = 8%:Q / 3%:Q.
Proof.
by rewrite /total_variance variances_B32 !big_cons big_nil; rat_eval.
Qed.

Example ratio_B32 :
  explained_variance_ratio_ B32 = [:: 3%:Q / 4%:Q; 1 / 4%:Q].
Proof.
rewrite /explained_variance_ratio_ total_variance_B32 variances_B32 /=.
by congr [:: _; _]; rat_eval.
Qed.

(** The basis with reversed directions is a different basis. *)
Remark flip_B32_differs : basis_U (flip B32) <> basis_U B32.
Proof.
move/(congr1 (fun A : 'M[rat]_2 => A 0 1)); rewrite /= !mxE /=.
by move/eqP; vm_compute.
Qed.

(** Centering three identical observations leaves nothing. *)
Lemma center_Xsame : center Xsame = 0.
Proof.
apply/matrixP=> i j; rewrite centerE sum_ord3 !mxE /=.
by case: (ord3P i) => ->; case: (ord3P j) => ->; rat_eval.
Qed.

Lemma basis_var_Bsame : basis_var Bsame = 0.
Proof.
apply/rowP=> j; rewrite !mxE /=.
by case: (ord3P j) => ->.
Qed.

Lemma fit_Xsame : fit (center Xsame) 3 Bsame.
Proof.
rewrite center_Xsame; split; [by [] | | | | by []].
- by rewrite /orthonormal_cols /= trmx1 mulmx1.
- rewrite /covariance trmx0 mul0mx scaler0 mul0mx basis_var_Bsame.
  by rewrite (_ : diag_mx 0 = 0) ?mulmx0 //; apply/matrixP=> i j; rewrite !mxE mul0rn.
- by move=> i j _; rewrite basis_var_Bsame !mxE.
Qed.

Lemma variances_Bsame : variances Bsame = [:: 0; 0; 0].
Proof. by rewrite /variances basis_var_Bsame enum_ord3 /= !mxE. Qed.

Lemma total_variance_B32_neq0 : total_variance B32 != 0.
Proof. by rewrite total_variance_B32; rat_eval. Qed.

Example ratio_opt_B32 :
  explained_variance_ratio_opt B32 = [:: Some (3%:Q / 4%:Q); Some (1 / 4%:Q)].
Proof. by rewrite (ratio_opt_defined total_variance_B32_neq0) ratio_B32. Qed.

(** Three identical observations: every ratio is the undefined quotient. *)
Example ratio_opt_Bsame :
  explained_variance_ratio_opt Bsame = [:: None; None; None].
Proof.
rewrite ratio_opt_undefined ?variances_Bsame //.
by rewrite /total_variance variances_Bsame !big_cons big_nil !addr0.
Qed.


Lemma explained_variance_ratio_defined_bounds_witness :
  [/\ all (le_defined (Some 0)) (explained_variance_ratio_opt B32),
      le_defined (sum_defined (explained_variance_ratio_opt B32)) (Some 1) &
      sum_defined (explained_variance_ratio_opt B32) = Some 1].
Proof.
have [ge0 le1 eq1] :=
  explained_variance_ratio_defined_bounds fit_X32 total_variance_B32_neq0.
by split; [exact: ge0 | exact: le1 | exact: eq1].
Defined.

(** The notebook run on three identical observations: the centered data
    are a valid input of [fit] and [Bsame] is a result that retains all
    [D = 3] components.  Every ratio is undefined: none is a non-negative
    number, and their sum is not 1. *)
Lemma explained_variance_ratio_undefined_counterexample :
  [/\ fit (center Xsame) 3 Bsame,
      n_components Bsame = 3%N,
      explained_variance_ratio_opt Bsame = [:: None; None; None],
      ~~ all (le_defined (Some 0)) (explained_variance_ratio_opt Bsame) &
      sum_defined (explained_variance_ratio_opt Bsame) <> Some 1].
Proof.
by split; rewrite ?ratio_opt_Bsame //; exact: fit_Xsame.
Qed.

Lemma explained_variance_ratio_defined_nonincreasing_witness :
  (forall i j, (i <= j < size (explained_variance_ratio_opt B32))%N ->
     le_defined (nth None (explained_variance_ratio_opt B32) j)
                (nth None (explained_variance_ratio_opt B32) i)) /\
  (forall B', fit X32 2 B' ->
     explained_variance_ratio_opt B' = explained_variance_ratio_opt B32).
Proof.
exact: (explained_variance_ratio_defined_nonincreasing fit_X32
          total_variance_B32_neq0).
Defined.

(** On the same run the ratios are not in non-increasing order: an
    undefined ratio is not even at most itself. *)
Lemma explained_variance_ratio_order_counterexample :
  fit (center Xsame) 3 Bsame /\
  ~ (forall i j, (i <= j < size (explained_variance_ratio_opt Bsame))%N ->
       le_defined (nth None (explained_variance_ratio_opt Bsame) j)
                  (nth None (explained_variance_ratio_opt Bsame) i)).
Proof.
split; first exact: fit_Xsame.
by rewrite ratio_opt_Bsame => /(_ 0%N 0%N isT).
Qed.

Lemma fit_deterministic_ratios_witness :
  variances B32 = variances (flip B32) /\
  explained_variance_ratio_ B32 = explained_variance_ratio_ (flip B32).
Proof.
exact: (fit_deterministic_ratios fit_X32 (fit_flip fit_X32)).
Defined.

(** ** The notebook as a whole *)

Section Notebook.

Variable R : realFieldType.
Variables N D : nat.

(** Whatever the data, the input of [fit] is centered (in exact
    arithmetic), the plotted sequence is determined by the data and it has
    three entries, one for each tick of the plot. *)
Lemma notebook_plot_sound (iris_data : 'M[R]_(N, D))
    (ratios ratios' : seq (option R)) :
  notebook_plot iris_data ratios -> notebook_plot iris_data ratios' ->
  [/\ centered (center iris_data),
      ratios' = ratios &
      size ratios = 3%N].
Proof.
move=> [B fitB ->] [B' fitB' ->].
have [/and3P[N_ge2 _ D_ge3] _ _ _ nB] := fitB; split.
- by apply: center_centered; exact: ltn_trans N_ge2.
- exact: ratio_opt_unique fitB fitB'.
- rewrite size_map size_take size_variances nB.
  by case: ltnP => // D_le3; apply/eqP; rewrite eqn_leq D_le3 D_ge3.
Qed.

End Notebook.

(** A run of the notebook on data whose only variation is along the first
    measurement: the plot shows the ratios 1, 0, 0. *)

Lemma Xaxis_centered : centered Xaxis.
Proof.
apply/rowP=> j; rewrite mean_axis0E sum_ord3 !mxE /=.
by case: (ord3P j) => ->; rat_eval.
Qed.

Lemma cov_Xaxis : covariance Xaxis = diag_mx (basis_var Baxis).
Proof.
apply/matrixP=> i j; rewrite /covariance mxE [in LHS]mxE sum_ord3 !mxE /=.
by case: (ord3P i) => ->; case: (ord3P j) => ->; rat_eval.
Qed.

Lemma fit_Xaxis : fit (center Xaxis) 3 Baxis.
Proof.
rewrite (center_fixes_centered Xaxis_centered).
split; [by [] | | | | by []].
- by rewrite /orthonormal_cols /= trmx1 mulmx1.
- by rewrite cov_Xaxis /= mulmx1 mul1mx.
- move=> i j; rewrite /Baxis /= !mxE /=.
  by case: (ord3P i) => ->; case: (ord3P j) => -> /=; vm_compute.
Qed.

Example notebook_plot_Xaxis :
  notebook_plot Xaxis [:: Some 1; Some 0; Some 0].
Proof.
exists Baxis; first exact: fit_Xaxis.
have TE : total_variance Baxis = 2%:Q / 3%:Q.
  rewrite /total_variance /variances enum_ord3 /= !big_cons big_nil !mxE /=.
  by rat_eval.
have T_neq0 : total_variance Baxis != 0 by rewrite TE; rat_eval.
rewrite (ratio_opt_defined T_neq0) /explained_variance_ratio_ TE.
rewrite /variances enum_ord3 /= !mxE /=.
by congr [:: Some _; Some _; Some _]; rat_eval.
Qed.

(** * Further properties of the code *)

Section MoreCentering.

Variable R : realFieldType.
Variables N D : nat.
Implicit Types X Y : 'M[R]_(N, D).

Lemma natr_neq0 : (0 < N)%N -> N%:R != 0 :> R.
Proof. by move=> N_gt0; rewrite pnatr_eq0 -lt0n. Qed.

(** X1: in exact arithmetic, centering forgets a constant offset: adding
    the same row to every observation does not change the centered data. *)
Theorem center_translation_invariant X (c : 'rV[R]_D) :
  (0 < N)%N -> center (X + broadcast N c) = center X.
Proof.
move=> N_gt0; have N_neq0 := natr_neq0 N_gt0.
apply/matrixP=> i j; rewrite !centerE.
under eq_bigr do rewrite !mxE.
rewrite big_split /= sumr_const card_ord !mxE mulrDl -[c 0 j *+ N]mulr_natr.
rewrite mulfK //.
by rewrite opprD addrACA subrr addr0.
Qed.

(** X2: in exact arithmetic, the centered data are all zero exactly when
    all observations are equal (in particular when there is a single
    observation). *)
Theorem center_eq0 X :
  (0 < N)%N -> (center X = 0 <-> forall i k j, X i j = X k j).
Proof.
move=> N_gt0; have N_neq0 := natr_neq0 N_gt0; split=> [cX0 i k j|rows_eq].
  have eq_mean l : X l j = (\sum_k X k j) / N%:R.
    by apply/eqP; rewrite -subr_eq0 -centerE cX0 mxE.
  by rewrite (eq_mean i) (eq_mean k).
apply/matrixP=> i j; rewrite centerE mxE.
under eq_bigr => k _ do rewrite (rows_eq k i j).
by rewrite sumr_const card_ord -mulr_natr mulfK // subrr.
Qed.

(** X3: in exact arithmetic, centering is linear: it commutes with
    rescaling the data and with adding two data sets of the same shape. *)
Theorem center_linear (a : R) X Y :
  center (a *: X + Y) = a *: center X + center Y.
Proof.
apply/matrixP=> i j; rewrite !(centerE, mxE).
under eq_bigr do rewrite !mxE.
rewrite big_split /= -mulr_sumr mulrDl mulrBr opprD -mulrA.
by rewrite addrACA.
Qed.

End MoreCentering.

Section MoreReducer.

Variable R : realFieldType.
Variable D : nat.

Lemma sqnorm_decode nu (Unu : 'M[R]_(D, nu)) (z : 'cV[R]_nu) :
  orthonormal_cols Unu -> sqnorm (decode Unu z) = sqnorm z.
Proof.
move=> oU; rewrite !sqnormE /decode trmx_mul mulmxA -(mulmxA z^T) oU.
by rewrite mulmx1.
Qed.

Lemma sqnorm_encode_le nu (Unu : 'M[R]_(D, nu)) (x : 'cV[R]_D) :
  orthonormal_cols Unu -> sqnorm (encode Unu x) <= sqnorm x.
Proof.
move=> oU; rewrite -subr_ge0 -sqnorm_residual //.
exact: sqnorm_ge0.
Qed.

Lemma ones_then_zeros_mul nu mu :
  (nu <= mu)%N ->
  ones_then_zeros R D nu *m ones_then_zeros R D mu = ones_then_zeros R D nu.
Proof.
move=> le_nu_mu; apply/matrixP=> i j; rewrite !mxE.
under eq_bigr do rewrite !mxE.
rewrite (bigD1 i) //= big1 ?addr0 => [k ne_ki|].
  by rewrite eq_sym (negPf ne_ki) mul0r.
rewrite eqxx /= -natrM mulnb; congr (_%:R); congr nat_of_bool.
case: (ltnP i nu) => [lt_i_nu|_]; last by rewrite !andbF.
by rewrite (leq_trans lt_i_nu le_nu_mu) !andbT.
Qed.

Lemma projector_principal nu (le_nu : (nu <= D)%N) (U : 'M[R]_D) :
  orthonormal_cols U ->
  projector (truncate le_nu U) = U *m ones_then_zeros R D nu *m U^T.
Proof.
move=> oU; have UUt := mulmx1C oU.
rewrite -(projector_in_principal_axes le_nu oU) !mulmxA UUt mul1mx.
by rewrite -mulmxA UUt mulmx1.
Qed.

(** X4: decoding is a right inverse of encoding: a code that is decoded
    and encoded again is unchanged. *)
Theorem encode_decode_id nu (Unu : 'M[R]_(D, nu)) (z : 'cV[R]_nu) :
  orthonormal_cols Unu -> encode Unu (decode Unu z) = z.
Proof. by move=> oU; rewrite /encode /decode mulmxA oU mul1mx. Qed.

(** X5: decoding preserves the length of a code, and encoding never
    lengthens an observation. *)
Theorem decode_isometry_encode_contraction nu (Unu : 'M[R]_(D, nu))
    (x : 'cV[R]_D) (z : 'cV[R]_nu) :
  orthonormal_cols Unu ->
  sqnorm (decode Unu z) = sqnorm z /\ sqnorm (encode Unu x) <= sqnorm x.
Proof.
by move=> oU; split; [exact: sqnorm_decode | exact: sqnorm_encode_le].
Qed.

(** X6: the squared length of an observation splits into that of its
    reconstruction and that of the reconstruction error, so neither exceeds
    it. *)
Theorem reconstruction_pythagoras nu (Unu : 'M[R]_(D, nu)) (x : 'cV[R]_D) :
  orthonormal_cols Unu ->
  [/\ sqnorm x =
        sqnorm (decode Unu (encode Unu x)) +
        sqnorm (x - decode Unu (encode Unu x)),
      sqnorm (decode Unu (encode Unu x)) <= sqnorm x &
      sqnorm (x - decode Unu (encode Unu x)) <= sqnorm x].
Proof.
move=> oU.
have pyth : sqnorm x = sqnorm (decode Unu (encode Unu x)) +
                       sqnorm (x - decode Unu (encode Unu x)).
  by rewrite sqnorm_decode // (sqnorm_residual x oU) addrC subrK.
split=> //.
- by rewrite sqnorm_decode //; exact: sqnorm_encode_le.
- by rewrite (sqnorm_residual x oU) gerBl; exact: sqnorm_ge0.
Qed.

(** X7: with the full orthogonal matrix [U] the code has the length of the
    observation. *)
Theorem encode_full_basis_parseval (U : 'M[R]_D) (x : 'cV[R]_D) :
  orthonormal_cols U -> sqnorm (encode U x) = sqnorm x.
Proof.
move=> oU; rewrite !sqnormE /encode trmx_mul trmxK mulmxA -(mulmxA x^T).
by rewrite (mulmx1C oU) mulmx1.
Qed.

(** X8: replacing the retained directions by an orthogonal recombination
    of them (a sign change, a permutation, a rotation) recombines the code
    in the same way and leaves the reconstruction unchanged. *)
Theorem reconstruct_basis_change nu (Unu : 'M[R]_(D, nu)) (Q : 'M[R]_nu)
    (x : 'cV[R]_D) :
  Q^T *m Q = 1%:M ->
  encode (Unu *m Q) x = Q^T *m encode Unu x /\
  decode (Unu *m Q) (encode (Unu *m Q) x) = decode Unu (encode Unu x).
Proof.
move=> oQ; have QQt := mulmx1C oQ.
rewrite /encode /decode trmx_mul; split; first by rewrite mulmxA.
by rewrite !mulmxA -(mulmxA Unu) QQt mulmx1.
Qed.

(** X9: round trips with different numbers of components compose to the
    one with fewer components, in either order. *)
Theorem reconstruct_nested nu mu (le_nu : (nu <= D)%N) (le_mu : (mu <= D)%N)
    (U : 'M[R]_D) (x : 'cV[R]_D) :
  orthonormal_cols U -> (nu <= mu)%N ->
  let Unu := truncate le_nu U in
  let Umu := truncate le_mu U in
  decode Unu (encode Unu (decode Umu (encode Umu x))) =
    decode Unu (encode Unu x) /\
  decode Umu (encode Umu (decode Unu (encode Unu x))) =
    decode Unu (encode Unu x).
Proof.
move=> oU le_nu_mu Unu Umu.
have PP : projector Unu *m projector Umu = projector Unu.
  rewrite !projector_principal // !mulmxA -(mulmxA _ U^T) oU mulmx1.
  by rewrite -(mulmxA U) ones_then_zeros_mul.
have PP' : projector Umu *m projector Unu = projector Unu.
  by rewrite -[LHS]trmxK trmx_mul !projector_sym PP projector_sym.
split.
- by rewrite -!/(reconstruct _ _) !reconstructE mulmxA PP.
- by rewrite -!/(reconstruct _ _) !reconstructE mulmxA PP'.
Qed.

(** X10: the remark of the markdown cell read in the principal axes:
    [U^T (U_nu U_nu^T) U] is the diagonal matrix with [nu] ones followed by
    zeros, that is, [U_nu U_nu^T] is [U] times that matrix times [U^T]. *)
Theorem projector_diagonal_in_principal_axes nu (le_nu : (nu <= D)%N)
    (U : 'M[R]_D) :
  orthonormal_cols U ->
  let Unu := truncate le_nu U in
  U^T *m (Unu *m Unu^T) *m U = ones_then_zeros R D nu /\
  Unu *m Unu^T = U *m ones_then_zeros R D nu *m U^T.
Proof.
move=> oU Unu; split.
- exact: projector_in_principal_axes.
- exact: projector_principal.
Qed.

End MoreReducer.

Section CenterThenEncode.

Variable R : realFieldType.
Variables N D : nat.

Lemma sum_observation_center (X : 'M[R]_(N, D)) :
  (0 < N)%N -> \sum_i observation (center X) i = 0.
Proof.
move=> N_gt0; apply/colP=> j; rewrite summxE mxE.
under eq_bigr do rewrite 2!mxE.
exact: sum_center_col.
Qed.

(** X11: in exact arithmetic, the codes of the centered observations sum
    to zero, and so do their reconstructions: encoded and reconstructed data
    stay centered. *)
Theorem centered_data_centered_codes nu (Unu : 'M[R]_(D, nu))
    (X : 'M[R]_(N, D)) :
  (0 < N)%N ->
  \sum_i encode Unu (observation (center X) i) = 0 /\
  \sum_i decode Unu (encode Unu (observation (center X) i)) = 0.
Proof.
move=> N_gt0; rewrite /decode /encode.
by rewrite -!mulmx_sumr sum_observation_center // !mulmx0.
Qed.

End CenterThenEncode.

(** *** The further properties on concrete inputs *)

Lemma U2_first_column_orthonormal : orthonormal_cols (truncate le12 U2).
Proof. exact: truncate_orthonormal U2_orthonormal. Qed.

Lemma center_translation_invariant_witness :
  center (Xraw + broadcast 2 c2) = center Xraw.
Proof. exact: (center_translation_invariant Xraw c2 isT). Defined.

Lemma center_eq0_witness :
  center Xsame = 0 <-> forall i k j, Xsame i j = Xsame k j.
Proof. exact: (center_eq0 Xsame isT). Defined.

Lemma encode_decode_id_witness :
  encode (truncate le12 U2) (decode (truncate le12 U2) z1) = z1.
Proof. exact: (encode_decode_id z1 U2_first_column_orthonormal). Defined.

Lemma decode_isometry_encode_contraction_witness :
  sqnorm (decode (truncate le12 U2) z1) = sqnorm z1 /\
  sqnorm (encode (truncate le12 U2) x2) <= sqnorm x2.
Proof.
exact: (decode_isometry_encode_contraction x2 z1 U2_first_column_orthonormal).
Defined.

Lemma reconstruction_pythagoras_witness :
  let Unu := truncate le12 U2 in
  [/\ sqnorm x2 =
        sqnorm (decode Unu (encode Unu x2)) +
        sqnorm (x2 - decode Unu (encode Unu x2)),
      sqnorm (decode Unu (encode Unu x2)) <= sqnorm x2 &
      sqnorm (x2 - decode Unu (encode Unu x2)) <= sqnorm x2].
Proof. exact: (reconstruction_pythagoras x2 U2_first_column_orthonormal). Defined.

Lemma encode_full_basis_parseval_witness : sqnorm (encode U2 x2) = sqnorm x2.
Proof. exact: (encode_full_basis_parseval x2 U2_orthonormal). Defined.

Lemma reconstruct_basis_change_witness :
  encode (U2 *m swap2) x2 = swap2^T *m encode U2 x2 /\
  decode (U2 *m swap2) (encode (U2 *m swap2) x2) = decode U2 (encode U2 x2).
Proof. exact: (reconstruct_basis_change U2 x2 swap2_orthonormal). Defined.

Lemma reconstruct_nested_witness :
  let Unu := truncate le12 U2 in
  let Umu := truncate le22 U2 in
  decode Unu (encode Unu (decode Umu (encode Umu x2))) =
    decode Unu (encode Unu x2) /\
  decode Umu (encode Umu (decode Unu (encode Unu x2))) =
    decode Unu (encode Unu x2).
Proof.
exact: (reconstruct_nested le12 le22 x2 U2_orthonormal (isT : (1 <= 2)%N)).
Defined.

Lemma projector_diagonal_in_principal_axes_witness :
  let Unu := truncate le12 U2 in
  U2^T *m (Unu *m Unu^T) *m U2 = ones_then_zeros rat 2 1 /\
  Unu *m Unu^T = U2 *m ones_then_zeros rat 2 1 *m U2^T.
Proof. exact: (projector_diagonal_in_principal_axes le12 U2_orthonormal). Defined.

Lemma centered_data_centered_codes_witness :
  let Unu := truncate le12 U2 in
  \sum_i encode Unu (observation (center Xraw) i) = 0 /\
  \sum_i decode Unu (encode Unu (observation (center Xraw) i)) = 0.
Proof. exact: (centered_data_centered_codes (truncate le12 U2) Xraw isT). Defined.
